(** * Diffusion-weighted correlation (eos/stereo/diffuse_correlation.h)

    Shallow embedding of the diffusion-weight field, the per-scanline
    diffusion slice and the correlation cost of the eos stereo module.
    Only the header [diffuse_correlation.h] is part of the sources: the
    inline [DiffusionWeight::Get] and [RangeDiffusionSlice::Y] are
    translated from it, the out-of-line method bodies are modelled from
    the specification of the module.  [real32] arithmetic is idealised as
    exact real arithmetic; [nat32] pixel coordinates are [nat] (a step to
    [x-1] at [x = 0] wraps to [2^32-1], which lies off any image, and is
    modelled as leaving the image); [int32] window offsets are [Z]. *)

From Stdlib Require Import Bool Arith ZArith Lia List Reals Lra.
Import ListNotations.

Open Scope R_scope.

(** ** ds::Array2D, with its reads checked against the bounds. *)
Module Array2D.
Record t (A : Type) := mk { width : nat; height : nat; cell : nat -> nat -> A }.
Arguments mk {A} _ _ _.
Arguments width {A} _.
Arguments height {A} _.
Arguments cell {A} _ _ _.

(** [Get x y]: [None] stands for a read outside the array. *)
Definition Get {A} (a : t A) (x y : nat) : option A :=
  if (x <? width a)%nat && (y <? height a)%nat then Some (cell a x y) else None.

Definition Set_ {A} (a : t A) (x y : nat) (v : A) : t A :=
  mk (width a) (height a)
     (fun i j => if (i =? x)%nat && (j =? y)%nat then v else cell a i j).

Definition Make {A} (w h : nat) (v : A) : t A := mk w h (fun _ _ => v).
End Array2D.

(** Writes [val p] at [(kx p, ky p)] for each [p] of [L] in turn. *)
Definition fillAll {A B : Type} (kx ky : B -> nat) (val : B -> A) (L : list B)
    (a0 : Array2D.t A) : Array2D.t A :=
  fold_left (fun a p => Array2D.Set_ a (kx p) (ky p) (val p)) L a0.

Section Model.

(** The colour range held by each pixel (bs::LuvRange); it is only ever
    passed to the distance function. *)
Context {Range : Type}.

(** ** bs::LuvRangeImage: a grid of colour ranges with a validity mask. *)
Record LuvRangeImage := {
  iwidth : nat;
  iheight : nat;
  mask : nat -> nat -> bool;   (* true when the pixel is not masked out *)
  pix : nat -> nat -> Range
}.

(** A pixel is valid when it lies on the image and is not masked. *)
Definition Valid (img : LuvRangeImage) (x y : nat) : bool :=
  (x <? iwidth img)%nat && (y <? iheight img)%nat && mask img x y.

(** bs::LuvRangeDist: a distance between two colour ranges. *)
Definition LuvRangeDist := Range -> Range -> R.

(** Direction coding of the header: 0 = +x, 1 = +y, 2 = -x, 3 = -y. *)
Definition dirs : list nat := [0; 1; 2; 3]%nat.

Definition Neighbour (x y dir : nat) : option (nat * nat) :=
  match dir with
  | 0 => Some (S x, y)
  | 1 => Some (x, S y)
  | 2 => match x with O => None | S x' => Some (x', y) end
  | 3 => match y with O => None | S y' => Some (x, y') end
  | _ => None
  end%nat.

(** The neighbour in direction [dir] exists on the image and is unmasked. *)
Definition NeighbourValid (img : LuvRangeImage) (x y dir : nat) : bool :=
  match Neighbour x y dir with
  | Some (a, b) => Valid img a b
  | None => false
  end.

Fixpoint sumR (l : list R) : R :=
  match l with [] => 0 | v :: r => v + sumR r end.

(** ** DiffusionWeight *)

(** [struct Weight { real32 dir[4]; }] *)
Record Weight := { dir : list R }.

Definition DiffusionWeight := Array2D.t Weight.

(** [real32 Get(nat32 x,nat32 y,nat32 dir) const {return data.Get(x,y).dir[dir];}]
    [None] stands for a read outside [data] or outside [dir[4]]. *)
Definition DW_Get (data : DiffusionWeight) (x y d : nat) : option R :=
  match Array2D.Get data x y with
  | Some w => nth_error (dir w) d
  | None => None
  end.

(** The weight read as a number, [0] where the read is undefined. *)
Definition DW_GetR (data : DiffusionWeight) (x y d : nat) : R :=
  match DW_Get data x y d with Some v => v | None => 0 end.

(** Modelled from the spec: the body of [DiffusionWeight::Create] (not in
    the sources).  For each of the four directions whose neighbour is on
    the image and unmasked, the multiplied distance to that neighbour. *)
Definition NeighbourCost (img : LuvRangeImage) (dist : LuvRangeDist)
    (distMult : R) (x y d : nat) : option R :=
  match Neighbour x y d with
  | Some (a, b) =>
      if Valid img a b then Some (dist (pix img x y) (pix img a b) * distMult)
      else None
  | None => None
  end.

Definition costsOf (img : LuvRangeImage) (dist : LuvRangeDist) (distMult : R)
    (x y : nat) : list (option R) :=
  map (NeighbourCost img dist distMult x y) dirs.

Definition optMin (l : list (option R)) : option R :=
  fold_left (fun acc c =>
    match acc, c with
    | Some m, Some v => Some (Rmin m v)
    | None, Some v => Some v
    | _, None => acc
    end) l None.

(** Negative exponential of a cost offset by the minimum [m]; 0 for an
    invalid direction. *)
Definition scoreOf (m : R) (c : option R) : R :=
  match c with Some v => exp (- (v - m)) | None => 0 end.

Definition zeroWeight : Weight := {| dir := [0; 0; 0; 0] |}.

(** Modelled from the spec: negative exponential of the costs after
    subtracting their minimum, normalised over the valid directions;
    invalid directions get 0, and a masked pixel, or one without any
    valid neighbour, gets 0 in all four directions. *)
Definition PixelWeight (img : LuvRangeImage) (dist : LuvRangeDist)
    (distMult : R) (x y : nat) : Weight :=
  if negb (Valid img x y) then zeroWeight else
  let costs := costsOf img dist distMult x y in
  match optMin costs with
  | None => zeroWeight
  | Some m =>
      let score := map (scoreOf m) costs in
      let total := sumR score in
      {| dir := map (fun s => s / total) score |}
  end.

(** Modelled from the spec: [DiffusionWeight::Create] fills one weight per
    pixel of the image. *)
Definition DW_Create (img : LuvRangeImage) (dist : LuvRangeDist)
    (distMult : R) : DiffusionWeight :=
  Array2D.mk (iwidth img) (iheight img) (PixelWeight img dist distMult).

(** Sum of the four direction weights of a pixel. *)
Definition DW_Sum (data : DiffusionWeight) (x y : nat) : R :=
  sumR (map (DW_GetR data x y) dirs).


(** ** RangeDiffusionSlice *)

(** A branch of the walk from a source pixel: the pixel it has reached,
    the offset [(u,v)] of that pixel from the source, and the weight it
    carries. *)
Record Entry := { epos : nat * nat; eoff : Z * Z; ew : R }.

Definition dirOffset (d : nat) : Z * Z :=
  match d with
  | 0%nat => (1, 0)%Z
  | 1%nat => (0, 1)%Z
  | 2%nat => (-1, 0)%Z
  | _ => (0, -1)%Z
  end.

(** Modelled from the spec: one hop of the walk of
    [RangeDiffusionSlice::Create] (not in the sources).  A branch goes on
    in each of the four directions, its weight multiplied by the
    [DiffusionWeight] entry of that direction; no branch steps off the
    image or onto a masked pixel.  A branch at a pixel none of whose four
    neighbours is valid can take no hop: its walk terminates there and the
    branch stays, with its offset and its weight, so that the weights of a
    valid source pixel keep summing to 1 (the walk is one of up to [steps]
    hops, normalised by construction). *)
Definition Hop (img : LuvRangeImage) (dw : DiffusionWeight) (e : Entry) : list Entry :=
  if existsb (NeighbourValid img (fst (epos e)) (snd (epos e))) dirs then
    flat_map (fun d =>
      match Neighbour (fst (epos e)) (snd (epos e)) d with
      | Some (a, b) =>
          if Valid img a b then
            [{| epos := (a, b);
                eoff := (fst (eoff e) + fst (dirOffset d),
                         snd (eoff e) + snd (dirOffset d))%Z;
                ew := ew e * DW_GetR dw (fst (epos e)) (snd (epos e)) d |}]
          else []
      | None => []
      end) dirs
  else [e].

(** Modelled from the spec: the branches after [n] rounds of hops. *)
Fixpoint Walk (img : LuvRangeImage) (dw : DiffusionWeight) (n : nat)
    (start : list Entry) : list Entry :=
  match n with
  | O => start
  | S n' => flat_map (Hop img dw) (Walk img dw n' start)
  end.

Definition offEqb (a b : Z * Z) : bool :=
  Z.eqb (fst a) (fst b) && Z.eqb (snd a) (snd b).

(** The branches of the walk of up to [steps] hops from source pixel [x]
    on row [yy]. *)
Definition WalkFrom (img : LuvRangeImage) (dw : DiffusionWeight)
    (yy steps x : nat) : list Entry :=
  Walk img dw steps [{| epos := (x, yy); eoff := (0, 0)%Z; ew := 1 |}].

(** Total weight carried by a list of branches. *)
Definition Mass (l : list Entry) : R := sumR (map ew l).

(** Modelled from the spec: the diffusion mask value of source pixel [x] on
    row [yy] at offset [o]: the weights of all branches that end at [o],
    summed; 0 for a masked or off-image source pixel. *)
Definition MaskValue (img : LuvRangeImage) (dw : DiffusionWeight)
    (yy steps x : nat) (o : Z * Z) : R :=
  if Valid img x yy then
    sumR (map (fun e => if offEqb (eoff e) o then ew e else 0)
              (WalkFrom img dw yy steps x))
  else 0.

(** Some branch of the walk from a valid source pixel ends at offset [o]. *)
Definition Reached (img : LuvRangeImage) (dw : DiffusionWeight)
    (yy steps x : nat) (o : Z * Z) : bool :=
  Valid img x yy && existsb (fun e => offEqb (eoff e) o) (WalkFrom img dw yy steps x).

Definition zrange (s : nat) : list Z :=
  map (fun i => Z.of_nat i - Z.of_nat s)%Z (seq 0 (2 * s + 1)).

(** The window of offsets with [abs(u) + abs(v) <= steps], in the order of
    its linearisation. *)
Definition Window (s : nat) : list (Z * Z) :=
  filter (fun o => (Z.abs (fst o) + Z.abs (snd o) <=? Z.of_nat s)%Z)
         (list_prod (zrange s) (zrange s)).

Definition WindowSize (s : nat) : nat := length (Window s).

(** Position of an offset in the linearisation. *)
Fixpoint posIn (o : Z * Z) (l : list (Z * Z)) : nat :=
  match l with
  | [] => 0%nat
  | p :: r => if offEqb p o then 0%nat else S (posIn o r)
  end.

(** Modelled from the spec: [offset], the index from [(u+steps,v+steps)] to
    the linearisation of the window. *)
Definition OffsetTable (s : nat) : Array2D.t nat :=
  Array2D.mk (2 * s + 1) (2 * s + 1)
    (fun i j => posIn (Z.of_nat i - Z.of_nat s, Z.of_nat j - Z.of_nat s)%Z (Window s)).

Definition OffsetIndex (offset : Array2D.t nat) (s : nat) (u v : Z) : nat :=
  match Array2D.Get offset (Z.to_nat (u + Z.of_nat s)) (Z.to_nat (v + Z.of_nat s)) with
  | Some k => k
  | None => 0%nat
  end.

(** The private storage of [RangeDiffusionSlice]. *)
Record RangeDiffusionSlice := {
  steps : nat;
  y : nat;
  data : Array2D.t R;       (* x by linearised window offset *)
  offset : Array2D.t nat    (* (u+steps, v+steps) to linearised offset *)
}.

(** Modelled from the spec: a newly constructed slice holds no storage. *)
Definition RDS_New : RangeDiffusionSlice :=
  {| steps := 0; y := 0; data := Array2D.Make 0 0 0; offset := Array2D.Make 0 0 0%nat |}.

(** Modelled from the spec: [RangeDiffusionSlice::Create(y, steps, img, dw)].
    The storage is kept when the width and the step count are those of the
    previous call and reallocated otherwise; then every pixel of the row
    has its mask written, a masked or off-image one as zeros. *)
Definition RDS_Create (yy s : nat) (img : LuvRangeImage) (dw : DiffusionWeight)
    (st : RangeDiffusionSlice) : RangeDiffusionSlice :=
  let w := iwidth img in
  let reuse := (Array2D.width (data st) =? w)%nat && (steps st =? s)%nat
               && (Array2D.height (data st) =? WindowSize s)%nat in
  let data0 := if reuse then data st else Array2D.Make w (WindowSize s) 0 in
  let off := if reuse then offset st else OffsetTable s in
  let data1 :=
    fold_left (fun dat xo =>
        Array2D.Set_ dat (fst xo) (OffsetIndex off s (fst (snd xo)) (snd (snd xo)))
                     (MaskValue img dw yy s (fst xo) (snd xo)))
      (list_prod (seq 0 w) (Window s)) data0 in
  {| steps := s; y := yy; data := data1; offset := off |}.

(** Modelled from the spec: [RangeDiffusionSlice::Get(x, u, v)]; 0 outside
    the window and for [x] off the stored row. *)
Definition RDS_Get (st : RangeDiffusionSlice) (x : nat) (u v : Z) : R :=
  if (Z.of_nat (steps st) <? Z.abs u + Z.abs v)%Z then 0 else
  match Array2D.Get (data st) x (OffsetIndex (offset st) (steps st) u v) with
  | Some r => r
  | None => 0
  end.

Definition RDS_Width (st : RangeDiffusionSlice) : nat := Array2D.width (data st).

Definition RDS_Steps (st : RangeDiffusionSlice) : nat := steps st.

(** [nat32 Y() const {return y;}] *)
Definition RDS_Y (st : RangeDiffusionSlice) : nat := y st.

(** The storage invariant: storage sized for the current step count holds
    the offset table of that step count. *)
Definition SliceWf (st : RangeDiffusionSlice) : Prop :=
  Array2D.height (data st) = WindowSize (steps st) -> offset st = OffsetTable (steps st).

(** Sum of the slice weights of source pixel [x] over a list of offsets. *)
Definition SliceSum (st : RangeDiffusionSlice) (x : nat) (os : list (Z * Z)) : R :=
  sumR (map (fun o => RDS_Get st x (fst o) (snd o)) os).

(** ** DiffuseCorrelation *)

Record DiffuseCorrelation := {
  dist : LuvRangeDist;
  distCap : R;
  img1 : LuvRangeImage;
  dif1 : RangeDiffusionSlice;
  img2 : LuvRangeImage;
  dif2 : RangeDiffusionSlice
}.

Definition DC_Setup (d : LuvRangeDist) (cap : R) (i1 : LuvRangeImage)
    (s1 : RangeDiffusionSlice) (i2 : LuvRangeImage) (s2 : RangeDiffusionSlice)
    : DiffuseCorrelation :=
  {| dist := d; distCap := cap; img1 := i1; dif1 := s1; img2 := i2; dif2 := s2 |}.

Definition nonZero (w : R) : bool := if Req_EM_T w 0 then false else true.

(** The pixel at offset [o] from [(x, yy)]. *)
Definition AtOffset (x yy : nat) (o : Z * Z) : nat * nat :=
  (Z.to_nat (Z.of_nat x + fst o), Z.to_nat (Z.of_nat yy + snd o)).

(** The clamped distance between the pixels at offset [o] from [x1] and
    [x2] on the two slices' rows. *)
Definition ClampedDist (dc : DiffuseCorrelation) (x1 x2 : nat) (o : Z * Z) : R :=
  let p1 := AtOffset x1 (RDS_Y (dif1 dc)) o in
  let p2 := AtOffset x2 (RDS_Y (dif2 dc)) o in
  Rmin (dist dc (pix (img1 dc) (fst p1) (snd p1)) (pix (img2 dc) (fst p2) (snd p2)))
       (distCap dc).

(** Modelled from the spec: the loop of [DiffuseCorrelation::Cost] over the
    window, accumulating the weighted clamped distances of the offsets at
    which both slices have weight, and whether there was any. *)
Definition CostLoop (dc : DiffuseCorrelation) (x1 x2 : nat) : R * bool :=
  fold_left (fun acc o =>
      let w1 := RDS_Get (dif1 dc) x1 (fst o) (snd o) in
      let w2 := RDS_Get (dif2 dc) x2 (fst o) (snd o) in
      if nonZero w1 && nonZero w2
      then (fst acc + (w1 + w2) * ClampedDist dc x1 x2 o, true)
      else acc)
    (Window (RDS_Steps (dif1 dc))) (0, false).

(** Modelled from the spec: [DiffuseCorrelation::Cost(x1, x2)]; the cap when
    either pixel is masked or off its image, or no offset is shared. *)
Definition DC_Cost (dc : DiffuseCorrelation) (x1 x2 : nat) : R :=
  if negb (Valid (img1 dc) x1 (RDS_Y (dif1 dc)) && Valid (img2 dc) x2 (RDS_Y (dif2 dc)))
  then distCap dc
  else let '(sum, any) := CostLoop dc x1 x2 in
       if any then sum / 2 else distCap dc.

(** The sum of C1: over the window offsets at which both weights are
    non-zero, [(w1 + w2)] times the clamped distance. *)
Definition SharedSum (dc : DiffuseCorrelation) (x1 x2 : nat) : R :=
  sumR (map (fun o =>
      let w1 := RDS_Get (dif1 dc) x1 (fst o) (snd o) in
      let w2 := RDS_Get (dif2 dc) x2 (fst o) (snd o) in
      if nonZero w1 && nonZero w2 then (w1 + w2) * ClampedDist dc x1 x2 o else 0)
    (Window (RDS_Steps (dif1 dc)))).

(** Some window offset has non-zero weight in both slices. *)
Definition SharedOffset (dc : DiffuseCorrelation) (x1 x2 : nat) : bool :=
  existsb (fun o => nonZero (RDS_Get (dif1 dc) x1 (fst o) (snd o))
                    && nonZero (RDS_Get (dif2 dc) x2 (fst o) (snd o)))
          (Window (RDS_Steps (dif1 dc))).

(** The normalisation property as the claim words it: every valid pixel
    has weights summing to 1, and a masked pixel or one whose four
    neighbours are all invalid has weight 0 in all four directions. *)
Definition DW_Normalisation_as_stated (img : LuvRangeImage) (dist : LuvRangeDist)
    (distMult : R) : Prop :=
  (forall x y, Valid img x y = true ->
     DW_Sum (DW_Create img dist distMult) x y = 1) /\
  (forall x y d, (x < iwidth img)%nat -> (y < iheight img)%nat ->
     (Valid img x y = false \/
      forall d', (d' < 4)%nat -> NeighbourValid img x y d' = false) ->
     (d < 4)%nat -> DW_Get (DW_Create img dist distMult) x y d = Some 0).

End Model.

Arguments LuvRangeImage : clear implicits.
Arguments LuvRangeDist : clear implicits.
Arguments DiffuseCorrelation : clear implicits.

(** The slices a program can hold: a new one, or one that [Create] has
    been called on with a weight field built by [DiffusionWeight::Create]. *)
Inductive SliceReachable : RangeDiffusionSlice -> Prop :=
| reach_new : SliceReachable RDS_New
| reach_create {Rg : Type} yy s (img dwimg : LuvRangeImage Rg) dist distMult st :
    SliceReachable st ->
    SliceReachable (RDS_Create yy s img (DW_Create dwimg dist distMult) st).


(** * Concrete instances *)

(** A one-pixel image, valid, and a 2x1 image, both valid. *)
Definition img1x1 : LuvRangeImage unit :=
  {| iwidth := 1; iheight := 1; mask := fun _ _ => true; pix := fun _ _ => tt |}.

Definition img2x1 : LuvRangeImage unit :=
  {| iwidth := 2; iheight := 1; mask := fun _ _ => true; pix := fun _ _ => tt |}.

Definition zeroDist : LuvRangeDist unit := fun _ _ => 0.

(** A one-step slice of row 0 of [img2x1]. *)
Definition slice2x1 : RangeDiffusionSlice :=
  RDS_Create 0 1 img2x1 (DW_Create img2x1 zeroDist 1) RDS_New.

(** A correlation of two fresh slices of [img1x1]. *)
Definition dc0 : DiffuseCorrelation unit :=
  DC_Setup zeroDist 1 img1x1 RDS_New img1x1 RDS_New.

(** A correlation of [img2x1] with itself through [slice2x1]. *)
Definition dc1 : DiffuseCorrelation unit :=
  DC_Setup zeroDist 1 img2x1 slice2x1 img2x1 slice2x1.


(** ** eos::rend::ToneScaler (tone_mappers.h)

    Only the mode flag of the tone scaler has code in the sources; [Apply]
    is declared without a body.  [bit] is a boolean. *)
Record ToneScaler := { meanM : bool }.

(** [ToneScaler(bit meanMode = false) : meanM(meanMode) {}]. *)
Definition ToneScaler_make (meanMode : bool) : ToneScaler := {| meanM := meanMode |}.

(** [ToneScaler()], the default argument. *)
Definition ToneScaler_default : ToneScaler := ToneScaler_make false.

(** [void SetMode(bit meanMode) {meanM = meanMode;}] *)
Definition SetMode (t : ToneScaler) (meanMode : bool) : ToneScaler :=
  {| meanM := meanMode |}.

(** [bit GetMode() const {return meanM;}] *)
Definition GetMode (t : ToneScaler) : bool := meanM t.

(** * Proofs *)

Section Proofs.

Variable Range : Type.
(** ** Facts about the diffusion weights *)

Lemma sumR_app (l1 l2 : list R) : sumR (l1 ++ l2) = sumR l1 + sumR l2.
Proof. induction l1; simpl; lra. Qed.

Lemma sumR_div (l : list R) (t : R) :
  sumR (map (fun s => s / t) l) = sumR l / t.
Proof. induction l; simpl; [unfold Rdiv; ring | rewrite IHl; unfold Rdiv; ring]. Qed.

Lemma sumR_nonneg (l : list R) : Forall (fun v => 0 <= v) l -> 0 <= sumR l.
Proof. induction 1; simpl; lra. Qed.

Lemma NeighbourCost_Some (img : LuvRangeImage Range) dist distMult x y d :
  NeighbourCost img dist distMult x y d <> None <-> NeighbourValid img x y d = true.
Proof.
  unfold NeighbourCost, NeighbourValid.
  destruct (Neighbour x y d) as [[a b]|]; [|split; congruence].
  destruct (Valid img a b); split; congruence.
Qed.

Lemma optMin_step_Some (l : list (option R)) (m : R) :
  exists m', fold_left (fun acc c =>
    match acc, c with
    | Some m, Some v => Some (Rmin m v)
    | None, Some v => Some v
    | _, None => acc
    end) l (Some m) = Some m'.
Proof.
  revert m; induction l as [|[v|] l IH]; intros m; simpl; eauto.
Qed.

Lemma optMin_Some (l : list (option R)) :
  Exists (fun c => c <> None) l -> exists m, optMin l = Some m.
Proof.
  intros H. unfold optMin. generalize (@None R).
  induction H as [[v|] l Hc|[v|] l _ IH]; intros a0.
  - simpl. destruct a0; apply optMin_step_Some.
  - congruence.
  - simpl. destruct a0; apply optMin_step_Some.
  - simpl. apply IH.
Qed.

(** The weights of one pixel: four entries, all non-negative, zero towards
    an invalid neighbour, and summing to 0 or 1. *)
Lemma PixelWeight_length (img : LuvRangeImage Range) dist distMult x y :
  length (dir (PixelWeight img dist distMult x y)) = 4%nat.
Proof.
  unfold PixelWeight. destruct (negb _); [reflexivity|].
  destruct (optMin _); simpl; reflexivity.
Qed.

Lemma scoreOf_nonneg m c : 0 <= scoreOf m c.
Proof. destruct c; simpl; [apply Rlt_le, exp_pos | lra]. Qed.

Lemma total_pos (m : R) (l : list (option R)) :
  Exists (fun c => c <> None) l -> 0 < sumR (map (scoreOf m) l).
Proof.
  induction 1 as [c l Hc|c l _ IH]; simpl.
  - destruct c as [v|]; [|congruence]. simpl.
    pose proof (exp_pos (- (v - m))).
    assert (0 <= sumR (map (scoreOf m) l)).
    { apply sumR_nonneg, Forall_forall. intros s Hs.
      apply in_map_iff in Hs as [c' [<- _]]. apply scoreOf_nonneg. }
    lra.
  - pose proof (scoreOf_nonneg m c). lra.
Qed.

Lemma costs_Exists (img : LuvRangeImage Range) dist distMult x y :
  (exists d, (d < 4)%nat /\ NeighbourValid img x y d = true) ->
  Exists (fun c => c <> None) (costsOf img dist distMult x y).
Proof.
  intros [d [Hd Hv]]. apply Exists_exists.
  exists (NeighbourCost img dist distMult x y d). split.
  - apply in_map. unfold dirs. simpl. lia.
  - apply NeighbourCost_Some. exact Hv.
Qed.

Lemma costs_none (img : LuvRangeImage Range) dist distMult x y :
  (forall d, (d < 4)%nat -> NeighbourValid img x y d = false) ->
  optMin (costsOf img dist distMult x y) = None.
Proof.
  intros H.
  assert (Hn : forall d, (d < 4)%nat -> NeighbourCost img dist distMult x y d = None).
  { intros d Hd. specialize (H d Hd).
    destruct (NeighbourCost img dist distMult x y d) eqn:E; [|reflexivity].
    exfalso. assert (NeighbourCost img dist distMult x y d <> None) by congruence.
    apply NeighbourCost_Some in H0. congruence. }
  unfold costsOf, dirs. simpl.
  rewrite (Hn 0%nat), (Hn 1%nat), (Hn 2%nat), (Hn 3%nat) by lia. reflexivity.
Qed.

Lemma PixelWeight_zero (img : LuvRangeImage Range) dist distMult x y :
  (Valid img x y = false \/ forall d, (d < 4)%nat -> NeighbourValid img x y d = false) ->
  PixelWeight img dist distMult x y = zeroWeight.
Proof.
  intros [Hv|Hn]; unfold PixelWeight.
  - rewrite Hv. reflexivity.
  - destruct (negb _); [reflexivity|].
    cbv zeta. rewrite costs_none by exact Hn. reflexivity.
Qed.

(** Shape of the weight of a valid pixel with a valid neighbour. *)
Lemma PixelWeight_norm (img : LuvRangeImage Range) dist distMult x y :
  Valid img x y = true ->
  (exists d, (d < 4)%nat /\ NeighbourValid img x y d = true) ->
  exists m, PixelWeight img dist distMult x y =
    {| dir := map (fun s => s / sumR (map (scoreOf m) (costsOf img dist distMult x y)))
                  (map (scoreOf m) (costsOf img dist distMult x y)) |}
    /\ 0 < sumR (map (scoreOf m) (costsOf img dist distMult x y)).
Proof.
  intros Hv Hn. pose proof (costs_Exists img dist distMult x y Hn) as Hex.
  destruct (optMin_Some _ Hex) as [m Hm].
  exists m. split; [|apply total_pos, Hex].
  unfold PixelWeight. rewrite Hv. cbv zeta. simpl negb. cbv iota.
  rewrite Hm. reflexivity.
Qed.

Lemma PixelWeight_nonneg (img : LuvRangeImage Range) dist distMult x y :
  Forall (fun v => 0 <= v) (dir (PixelWeight img dist distMult x y)).
Proof.
  unfold PixelWeight. destruct (negb _).
  { repeat constructor; lra. }
  destruct (optMin _) as [m|]; [|repeat constructor; lra].
  cbv zeta. cbn [dir]. set (l := costsOf img dist distMult x y).
  assert (Ht : 0 <= sumR (map (scoreOf m) l)).
  { apply sumR_nonneg, Forall_forall. intros v Hv.
    apply in_map_iff in Hv as [c [<- _]]. apply scoreOf_nonneg. }
  apply Forall_forall. intros v Hv.
  apply in_map_iff in Hv as [s [<- Hs]].
  apply in_map_iff in Hs as [c [<- _]].
  change (0 <= scoreOf m c / sumR (map (scoreOf m) l)).
  pose proof (scoreOf_nonneg m c).
  destruct (Req_dec (sumR (map (scoreOf m) l)) 0) as [E|E].
  - rewrite E. unfold Rdiv. rewrite Rinv_0. lra.
  - destruct (Rle_lt_dec (sumR (map (scoreOf m) l)) 0) as [Hle|Hlt]; [lra|].
    unfold Rdiv. apply Rmult_le_pos; [lra | apply Rlt_le, Rinv_0_lt_compat; lra].
Qed.

Lemma PixelWeight_sum (img : LuvRangeImage Range) dist distMult x y :
  Valid img x y = true ->
  (exists d, (d < 4)%nat /\ NeighbourValid img x y d = true) ->
  sumR (dir (PixelWeight img dist distMult x y)) = 1.
Proof.
  intros Hv Hn. destruct (PixelWeight_norm img dist distMult x y Hv Hn) as [m [-> Ht]].
  cbn [dir]. rewrite sumR_div. field. lra.
Qed.

Lemma PixelWeight_invalid_dir (img : LuvRangeImage Range) dist distMult x y d :
  (d < 4)%nat -> NeighbourValid img x y d = false ->
  nth_error (dir (PixelWeight img dist distMult x y)) d = Some 0.
Proof.
  intros Hd Hnv.
  assert (Hc : NeighbourCost img dist distMult x y d = None).
  { destruct (NeighbourCost img dist distMult x y d) eqn:E; [|reflexivity].
    exfalso. assert (NeighbourCost img dist distMult x y d <> None) by congruence.
    apply NeighbourCost_Some in H. congruence. }
  unfold PixelWeight. destruct (negb _).
  { simpl. destruct d as [|[|[|[|]]]]; try reflexivity; lia. }
  destruct (optMin _) as [m|].
  2: { simpl. destruct d as [|[|[|[|]]]]; try reflexivity; lia. }
  cbv zeta. cbn [dir]. unfold costsOf. rewrite !nth_error_map.
  assert (Hd' : nth_error dirs d = Some d)
    by (destruct d as [|[|[|[|]]]]; try reflexivity; lia).
  rewrite Hd'. cbn [option_map]. rewrite Hc. f_equal. simpl. unfold Rdiv. ring.
Qed.

(** Reading the created field at an in-bounds pixel. *)
Lemma DW_Get_Create (img : LuvRangeImage Range) dist distMult x y d :
  (x < iwidth img)%nat -> (y < iheight img)%nat ->
  DW_Get (DW_Create img dist distMult) x y d =
  nth_error (dir (PixelWeight img dist distMult x y)) d.
Proof.
  intros Hx Hy. unfold DW_Get, Array2D.Get, DW_Create. simpl.
  apply Nat.ltb_lt in Hx, Hy. rewrite Hx, Hy. reflexivity.
Qed.

Lemma sumR_four (l : list R) :
  length l = 4%nat ->
  sumR (map (fun d => match nth_error l d with Some v => v | None => 0 end) dirs) = sumR l.
Proof.
  intros H. destruct l as [|a [|b [|c [|e [|]]]]]; try discriminate. simpl. ring.
Qed.

Lemma DW_Sum_Create (img : LuvRangeImage Range) dist distMult x y :
  (x < iwidth img)%nat -> (y < iheight img)%nat ->
  DW_Sum (DW_Create img dist distMult) x y = sumR (dir (PixelWeight img dist distMult x y)).
Proof.
  intros Hx Hy. unfold DW_Sum, DW_GetR.
  rewrite <- (sumR_four _ (PixelWeight_length img dist distMult x y)).
  f_equal. apply map_ext. intros d. rewrite DW_Get_Create by assumption. reflexivity.
Qed.

(** ** Claims about [DiffusionWeight] *)

(** C2 (amended): after [DiffusionWeight::Create], a valid pixel with at
    least one valid neighbour has its four weights summing to 1; a masked
    pixel, or one whose four neighbours are all invalid, has weight exactly
    0 in every direction. *)
Theorem DW_Create_normalised (img : LuvRangeImage Range) dist distMult x y :
  (x < iwidth img)%nat -> (y < iheight img)%nat ->
  (Valid img x y = true ->
   (exists d, (d < 4)%nat /\ NeighbourValid img x y d = true) ->
   DW_Sum (DW_Create img dist distMult) x y = 1) /\
  ((Valid img x y = false \/
    forall d, (d < 4)%nat -> NeighbourValid img x y d = false) ->
   forall d, (d < 4)%nat -> DW_Get (DW_Create img dist distMult) x y d = Some 0).
Proof.
  intros Hx Hy. split.
  - intros Hv Hn. rewrite DW_Sum_Create by assumption.
    apply PixelWeight_sum; assumption.
  - intros Hz d Hd. rewrite DW_Get_Create by assumption.
    rewrite PixelWeight_zero by exact Hz. simpl.
    destruct d as [|[|[|[|]]]]; try reflexivity; lia.
Qed.

(** C6: after [DiffusionWeight::Create], the weight of an on-image pixel in
    a direction whose neighbour is masked or off the image is exactly 0. *)
Theorem DW_Create_invalid_neighbour (img : LuvRangeImage Range) dist distMult x y d :
  (x < iwidth img)%nat -> (y < iheight img)%nat -> (d < 4)%nat ->
  NeighbourValid img x y d = false ->
  DW_Get (DW_Create img dist distMult) x y d = Some 0.
Proof.
  intros Hx Hy Hd Hn. rewrite DW_Get_Create by assumption.
  apply PixelWeight_invalid_dir; assumption.
Qed.

(** C10: [DiffusionWeight::Get] at an on-image pixel reads inside the
    four-entry [dir] array exactly when [dir < 4]; for [dir >= 4] the read
    falls outside it. *)
Theorem DW_Get_defined_iff (img : LuvRangeImage Range) dist distMult x y d :
  (x < iwidth img)%nat -> (y < iheight img)%nat ->
  DW_Get (DW_Create img dist distMult) x y d <> None <-> (d < 4)%nat.
Proof.
  intros Hx Hy. rewrite DW_Get_Create by assumption.
  rewrite nth_error_Some, PixelWeight_length. reflexivity.
Qed.

(** ** Window and storage lemmas *)

Lemma offEqb_spec (a b : Z * Z) : offEqb a b = true <-> a = b.
Proof.
  destruct a as [a1 a2], b as [b1 b2]. unfold offEqb. simpl.
  rewrite andb_true_iff, !Z.eqb_eq. split; [intros [-> ->]; reflexivity|].
  intros H; inversion H; auto.
Qed.

Lemma offEqb_refl (a : Z * Z) : offEqb a a = true.
Proof. apply offEqb_spec. reflexivity. Qed.

Lemma posIn_nth (o : Z * Z) (l : list (Z * Z)) :
  In o l -> nth_error l (posIn o l) = Some o /\ (posIn o l < length l)%nat.
Proof.
  induction l as [|p l IH]; simpl; [tauto|]. intros [<-|H].
  - rewrite offEqb_refl. simpl. split; [reflexivity | lia].
  - destruct (offEqb p o) eqn:E.
    + apply offEqb_spec in E. subst. simpl. split; [reflexivity | lia].
    + simpl. destruct (IH H). split; [assumption | lia].
Qed.

Lemma posIn_inj (o1 o2 : Z * Z) (l : list (Z * Z)) :
  In o1 l -> In o2 l -> posIn o1 l = posIn o2 l -> o1 = o2.
Proof.
  intros H1 H2 E. destruct (posIn_nth o1 l H1) as [N1 _].
  destruct (posIn_nth o2 l H2) as [N2 _]. rewrite E in N1. congruence.
Qed.

Lemma NoDup_map_inj {A B : Type} (f : A -> B) (l : list A) :
  (forall a b, In a l -> In b l -> f a = f b -> a = b) -> NoDup l -> NoDup (map f l).
Proof.
  intros Hinj Hnd. induction Hnd as [|a l Ha Hnd IH]; simpl; constructor.
  - intros Hin. apply in_map_iff in Hin as [b [E Hb]].
    assert (b = a) by (apply Hinj; simpl; auto). subst. contradiction.
  - apply IH. intros a' b' H1 H2. apply Hinj; simpl; auto.
Qed.

Lemma in_zrange (s : nat) (z : Z) :
  In z (zrange s) <-> (- Z.of_nat s <= z <= Z.of_nat s)%Z.
Proof.
  unfold zrange. rewrite in_map_iff. split.
  - intros [i [<- Hi]]. apply in_seq in Hi. lia.
  - intros Hz. exists (Z.to_nat (z + Z.of_nat s)). split; [lia|].
    apply in_seq. lia.
Qed.

Lemma NoDup_zrange (s : nat) : NoDup (zrange s).
Proof.
  unfold zrange. apply NoDup_map_inj; [|apply seq_NoDup].
  intros a b _ _ H. lia.
Qed.

Lemma NoDup_list_prod {A B : Type} (l1 : list A) (l2 : list B) :
  NoDup l1 -> NoDup l2 -> NoDup (list_prod l1 l2).
Proof.
  intros H1 H2. induction H1 as [|a l1 Ha _ IH]; simpl; [constructor|].
  apply NoDup_app; [| exact IH |].
  - apply NoDup_map_inj; [|exact H2]. intros b1 b2 _ _ E. congruence.
  - intros [a' b] Hin Hin'. apply in_map_iff in Hin as [b' [E _]].
    inversion E; subst. apply in_prod_iff in Hin' as [Ha' _]. contradiction.
Qed.

Lemma in_Window (s : nat) (o : Z * Z) :
  In o (Window s) <-> (Z.abs (fst o) + Z.abs (snd o) <= Z.of_nat s)%Z.
Proof.
  destruct o as [u v]. unfold Window. rewrite filter_In, in_prod_iff, !in_zrange.
  simpl. rewrite Z.leb_le. split; [tauto|]. intros H. repeat split; lia.
Qed.

Lemma NoDup_Window (s : nat) : NoDup (Window s).
Proof. apply NoDup_filter, NoDup_list_prod; apply NoDup_zrange. Qed.

Lemma WindowSize_pos (s : nat) : (0 < WindowSize s)%nat.
Proof.
  unfold WindowSize. assert (H : In (0, 0)%Z (Window s)) by (apply in_Window; simpl; lia).
  destruct (Window s); [contradiction | simpl; lia].
Qed.

Lemma OffsetIndex_Table (s : nat) (o : Z * Z) :
  In o (Window s) ->
  OffsetIndex (OffsetTable s) s (fst o) (snd o) = posIn o (Window s).
Proof.
  intros H. pose proof (proj1 (in_Window s o) H) as Hb. destruct o as [u v]. simpl in *.
  unfold OffsetIndex, Array2D.Get, OffsetTable. cbn [Array2D.width Array2D.height].
  replace ((Z.to_nat (u + Z.of_nat s) <? 2 * s + 1)%nat) with true by (symmetry; apply Nat.ltb_lt; lia).
  replace ((Z.to_nat (v + Z.of_nat s) <? 2 * s + 1)%nat) with true by (symmetry; apply Nat.ltb_lt; lia).
  cbn [andb Array2D.cell]. rewrite !Z2Nat.id by lia.
  replace (u + Z.of_nat s - Z.of_nat s)%Z with u by ring.
  replace (v + Z.of_nat s - Z.of_nat s)%Z with v by ring. reflexivity.
Qed.

Section FoldSet.
Context {A B : Type} (kx ky : B -> nat) (val : B -> A).

Lemma fillAll_dims L a0 :
  Array2D.width (fillAll kx ky val L a0) = Array2D.width a0 /\
  Array2D.height (fillAll kx ky val L a0) = Array2D.height a0.
Proof.
  unfold fillAll. revert a0; induction L as [|p L IH]; intros a0; simpl; [auto|].
  destruct (IH (Array2D.Set_ a0 (kx p) (ky p) (val p))) as [-> ->]. simpl. auto.
Qed.

Lemma fillAll_miss L a0 i j :
  (forall q, In q L -> (kx q, ky q) <> (i, j)) ->
  Array2D.cell (fillAll kx ky val L a0) i j = Array2D.cell a0 i j.
Proof.
  unfold fillAll. revert a0; induction L as [|p L IH]; intros a0 H; simpl; [auto|].
  rewrite IH by (intros q Hq; apply H; right; exact Hq). simpl.
  destruct ((i =? kx p)%nat && (j =? ky p)%nat) eqn:E; [|reflexivity].
  apply andb_true_iff in E as [E1 E2]. apply Nat.eqb_eq in E1, E2. subst.
  exfalso. apply (H p); [left|]; reflexivity.
Qed.

Lemma fillAll_hit L a0 p :
  NoDup (map (fun q => (kx q, ky q)) L) -> In p L ->
  Array2D.cell (fillAll kx ky val L a0) (kx p) (ky p) = val p.
Proof.
  unfold fillAll. revert a0; induction L as [|q L IH]; intros a0 Hnd Hin; simpl in *; [tauto|].
  inversion Hnd as [|? ? Hnotin Hnd']; subst.
  destruct Hin as [->|Hin].
  - fold (fillAll kx ky val L (Array2D.Set_ a0 (kx p) (ky p) (val p))).
    rewrite fillAll_miss.
    + simpl. rewrite !Nat.eqb_refl. reflexivity.
    + intros q' Hq' E. apply Hnotin. rewrite <- E. apply in_map_iff. eauto.
  - apply IH; assumption.
Qed.
End FoldSet.

(** ** Reading a slice after [Create] *)

Lemma fill_Get (img : LuvRangeImage Range) dw yy s (data0 : Array2D.t R) x u v :
  Array2D.width data0 = iwidth img -> Array2D.height data0 = WindowSize s ->
  In (u, v) (Window s) ->
  Array2D.Get
    (fold_left (fun dat xo =>
        Array2D.Set_ dat (fst xo) (OffsetIndex (OffsetTable s) s (fst (snd xo)) (snd (snd xo)))
                     (MaskValue img dw yy s (fst xo) (snd xo)))
      (list_prod (seq 0 (iwidth img)) (Window s)) data0)
    x (OffsetIndex (OffsetTable s) s u v)
  = if (x <? iwidth img)%nat then Some (MaskValue img dw yy s x (u, v)) else None.
Proof.
  intros Hw Hh Hin.
  set (kx := fun xo : nat * (Z * Z) => fst xo).
  set (ky := fun xo : nat * (Z * Z) => OffsetIndex (OffsetTable s) s (fst (snd xo)) (snd (snd xo))).
  set (vl := fun xo : nat * (Z * Z) => MaskValue img dw yy s (fst xo) (snd xo)).
  set (L := list_prod (seq 0 (iwidth img)) (Window s)).
  change (Array2D.Get (fillAll kx ky vl L data0) x (ky (x, (u, v))) =
          (if (x <? iwidth img)%nat then Some (vl (x, (u, v))) else None)).
  destruct (fillAll_dims kx ky vl L data0) as [Ew Eh].
  assert (Hky : ky (x, (u, v)) = posIn (u, v) (Window s))
    by (apply (OffsetIndex_Table s (u, v)), Hin).
  unfold Array2D.Get. rewrite Ew, Eh, Hw, Hh, Hky.
  destruct (posIn_nth (u, v) (Window s) Hin) as [_ Hlt].
  replace (posIn (u, v) (Window s) <? WindowSize s)%nat with true
    by (symmetry; apply Nat.ltb_lt; exact Hlt).
  rewrite andb_true_r.
  destruct (x <? iwidth img)%nat eqn:Ex; [|reflexivity].
  f_equal. rewrite <- Hky. change x with (kx (x, (u, v))) at 1.
  apply (fillAll_hit kx ky vl L data0 (x, (u, v))).
  - apply NoDup_map_inj; [|apply NoDup_list_prod; [apply seq_NoDup | apply NoDup_Window]].
    intros [x1 o1] [x2 o2] H1 H2 E. apply in_prod_iff in H1 as [_ H1].
    apply in_prod_iff in H2 as [_ H2]. unfold kx, ky in E. simpl in E.
    destruct o1 as [u1 v1], o2 as [u2 v2].
    rewrite (OffsetIndex_Table s (u1, v1) H1), (OffsetIndex_Table s (u2, v2) H2) in E.
    inversion E as [[Ex' Ep]]. subst. f_equal. apply posIn_inj with (Window s); assumption.
  - apply in_prod_iff. split; [apply in_seq; apply Nat.ltb_lt in Ex; lia | exact Hin].
Qed.

Lemma RDS_Create_shape (img : LuvRangeImage Range) dw yy s st :
  SliceWf st ->
  offset (RDS_Create yy s img dw st) = OffsetTable s /\
  steps (RDS_Create yy s img dw st) = s /\
  y (RDS_Create yy s img dw st) = yy /\
  data (RDS_Create yy s img dw st) =
    fold_left (fun dat xo =>
        Array2D.Set_ dat (fst xo) (OffsetIndex (OffsetTable s) s (fst (snd xo)) (snd (snd xo)))
                     (MaskValue img dw yy s (fst xo) (snd xo)))
      (list_prod (seq 0 (iwidth img)) (Window s))
      (if (Array2D.width (data st) =? iwidth img)%nat && (steps st =? s)%nat
          && (Array2D.height (data st) =? WindowSize s)%nat
       then data st else Array2D.Make (iwidth img) (WindowSize s) 0).
Proof.
  intros Hwf. unfold RDS_Create. cbv zeta.
  destruct ((Array2D.width (data st) =? iwidth img)%nat && (steps st =? s)%nat
            && (Array2D.height (data st) =? WindowSize s)%nat) eqn:E;
    [|repeat split; reflexivity].
  apply andb_true_iff in E as [E E3]. apply andb_true_iff in E as [_ E2].
  apply Nat.eqb_eq in E2, E3. subst s.
  rewrite (Hwf E3). repeat split; reflexivity.
Qed.

Lemma RDS_Create_Wf (img : LuvRangeImage Range) dw yy s st :
  SliceWf st -> SliceWf (RDS_Create yy s img dw st).
Proof.
  intros Hwf _. destruct (RDS_Create_shape img dw yy s st Hwf) as [-> [-> _]]. reflexivity.
Qed.

Lemma RDS_New_Wf : SliceWf RDS_New.
Proof.
  intros H. simpl in H. pose proof (WindowSize_pos 0). lia.
Qed.

Lemma RDS_Create_width (img : LuvRangeImage Range) dw yy s st :
  SliceWf st -> Array2D.width (data (RDS_Create yy s img dw st)) = iwidth img.
Proof.
  intros Hwf. destruct (RDS_Create_shape img dw yy s st Hwf) as [_ [_ [_ ->]]].
  etransitivity; [apply (proj1 (fillAll_dims _ _ _ _ _))|].
  destruct (_ && _ && _) eqn:E; [|reflexivity].
  apply andb_true_iff in E as [E _]. apply andb_true_iff in E as [E _].
  apply Nat.eqb_eq. exact E.
Qed.

(** [Get] after [Create]: the mask value inside the window and on the row,
    0 elsewhere. *)
Lemma RDS_Get_Create (img : LuvRangeImage Range) dw yy s st x u v :
  SliceWf st ->
  RDS_Get (RDS_Create yy s img dw st) x u v =
  if (Z.abs u + Z.abs v <=? Z.of_nat s)%Z && (x <? iwidth img)%nat
  then MaskValue img dw yy s x (u, v) else 0.
Proof.
  intros Hwf. destruct (RDS_Create_shape img dw yy s st Hwf) as [Eo [Es [_ Ed]]].
  unfold RDS_Get. rewrite Eo, Es, Ed.
  destruct (Z.of_nat s <? Z.abs u + Z.abs v)%Z eqn:E1.
  { apply Z.ltb_lt in E1. replace (Z.abs u + Z.abs v <=? Z.of_nat s)%Z with false
      by (symmetry; apply Z.leb_gt; lia). reflexivity. }
  apply Z.ltb_ge in E1. replace (Z.abs u + Z.abs v <=? Z.of_nat s)%Z with true
    by (symmetry; apply Z.leb_le; lia). simpl.
  rewrite fill_Get.
  - destruct (x <? iwidth img)%nat; reflexivity.
  - destruct (_ && _ && _) eqn:E; [|reflexivity].
    apply andb_true_iff in E as [E _]. apply andb_true_iff in E as [E _].
    apply Nat.eqb_eq. exact E.
  - destruct (_ && _ && _) eqn:E; [|reflexivity].
    apply andb_true_iff in E as [_ E]. apply Nat.eqb_eq. exact E.
  - apply in_Window. simpl. lia.
Qed.

End Proofs.

Lemma SliceReachable_Wf st : SliceReachable st -> SliceWf st.
Proof.
  induction 1; [apply RDS_New_Wf | apply RDS_Create_Wf; assumption].
Qed.

Lemma RDS_Get_New x u v : RDS_Get RDS_New x u v = 0.
Proof.
  unfold RDS_Get. destruct (_ <? _)%Z; reflexivity.
Qed.

Section Slices.

Variable Range : Type.

Lemma MaskValue_unreached (img : LuvRangeImage Range) dw yy s x o :
  Reached img dw yy s x o = false -> MaskValue img dw yy s x o = 0.
Proof.
  unfold Reached, MaskValue. destruct (Valid img x yy); [simpl|reflexivity].
  induction (WalkFrom img dw yy s x) as [|e l IH]; simpl; [reflexivity|].
  intros H. apply orb_false_iff in H as [H1 H2]. rewrite H1, IH by exact H2. ring.
Qed.

(** ** Mass of the walk *)

Lemma sumR_map_plus {A : Type} (f g : A -> R) (l : list A) :
  sumR (map (fun a => f a + g a) l) = sumR (map f l) + sumR (map g l).
Proof. induction l; simpl; lra. Qed.

Lemma sumR_map_scale {A : Type} (c : R) (f : A -> R) (l : list A) :
  sumR (map (fun a => c * f a) l) = c * sumR (map f l).
Proof. induction l; simpl; [ring | rewrite IHl; ring]. Qed.

Lemma sumR_map_le {A : Type} (f g : A -> R) (l : list A) :
  (forall a, In a l -> f a <= g a) -> sumR (map f l) <= sumR (map g l).
Proof.
  induction l as [|a l IH]; simpl; intros H; [lra|].
  pose proof (H a (or_introl eq_refl)). pose proof (IH (fun b Hb => H b (or_intror Hb))). lra.
Qed.

Lemma sumR_map_nonneg {A : Type} (f : A -> R) (l : list A) :
  (forall a, In a l -> 0 <= f a) -> 0 <= sumR (map f l).
Proof.
  intros H. apply sumR_nonneg, Forall_forall. intros v Hv.
  apply in_map_iff in Hv as [a [<- Ha]]. apply H, Ha.
Qed.

Lemma Mass_app (l1 l2 : list Entry) : Mass (l1 ++ l2) = Mass l1 + Mass l2.
Proof. unfold Mass. rewrite map_app. apply sumR_app. Qed.

Lemma Mass_flat_map {A : Type} (f : A -> list Entry) (l : list A) :
  Mass (flat_map f l) = sumR (map (fun e => Mass (f e)) l).
Proof.
  induction l as [|e l IH]; simpl; [reflexivity|]. rewrite Mass_app, IH. reflexivity.
Qed.

(** Weight a branch passes on in one hop, per unit: the weights of its
    valid directions, or all of it when it cannot move. *)
Lemma Hop_mass (img : LuvRangeImage Range) dw e :
  Mass (Hop img dw e) =
  ew e * (if existsb (NeighbourValid img (fst (epos e)) (snd (epos e))) dirs
          then sumR (map (fun d => if NeighbourValid img (fst (epos e)) (snd (epos e)) d
                                   then DW_GetR dw (fst (epos e)) (snd (epos e)) d else 0) dirs)
          else 1).
Proof.
  unfold Hop. destruct (existsb _ dirs); [|unfold Mass; simpl; ring].
  rewrite Mass_flat_map, <- sumR_map_scale. f_equal. apply map_ext.
  intros d. unfold NeighbourValid.
  destruct (Neighbour _ _ d) as [[a b]|]; [|unfold Mass; simpl; ring].
  destruct (Valid img a b); unfold Mass; simpl; ring.
Qed.

Lemma Neighbour_back x y d a b :
  Neighbour x y d = Some (a, b) ->
  exists d', (d' < 4)%nat /\ Neighbour a b d' = Some (x, y).
Proof.
  destruct d as [|[|[|[|d]]]]; simpl; intros H.
  - inversion H; subst. exists 2%nat. split; [lia | reflexivity].
  - inversion H; subst. exists 3%nat. split; [lia | reflexivity].
  - destruct x; inversion H; subst. exists 0%nat. split; [lia | reflexivity].
  - destruct y; inversion H; subst. exists 1%nat. split; [lia | reflexivity].
  - discriminate.
Qed.

Lemma in_Hop (img : LuvRangeImage Range) dw e e' :
  In e' (Hop img dw e) ->
  (existsb (NeighbourValid img (fst (epos e)) (snd (epos e))) dirs = false /\ e' = e) \/
  exists d, (d < 4)%nat /\
    Neighbour (fst (epos e)) (snd (epos e)) d = Some (epos e') /\
    Valid img (fst (epos e')) (snd (epos e')) = true /\
    eoff e' = (fst (eoff e) + fst (dirOffset d), snd (eoff e) + snd (dirOffset d))%Z /\
    ew e' = ew e * DW_GetR dw (fst (epos e)) (snd (epos e)) d.
Proof.
  unfold Hop. destruct (existsb _ dirs) eqn:Ex.
  - intros H. right. apply in_flat_map in H as [d [Hd H]].
    assert (Hd4 : (d < 4)%nat) by (unfold dirs in Hd; simpl in Hd; lia).
    destruct (Neighbour _ _ d) as [[a b]|] eqn:En; [|contradiction].
    destruct (Valid img a b) eqn:Ev; [|contradiction].
    destruct H as [<-|[]]. exists d. simpl. repeat split; assumption.
  - intros [<-|[]]. left. auto.
Qed.

Lemma dirOffset_norm d :
  (Z.abs (fst (dirOffset d)) + Z.abs (snd (dirOffset d)) = 1)%Z.
Proof. destruct d as [|[|[|[|]]]]; reflexivity. Qed.

(** Offsets of branches after [n] rounds lie within distance [n]. *)
Lemma Walk_offsets (img : LuvRangeImage Range) dw n start e :
  (forall e0, In e0 start -> eoff e0 = (0, 0)%Z) ->
  In e (Walk img dw n start) ->
  (Z.abs (fst (eoff e)) + Z.abs (snd (eoff e)) <= Z.of_nat n)%Z.
Proof.
  intros Hs. revert e. induction n as [|n IH]; intros e He; simpl in He.
  - rewrite (Hs e He). simpl. lia.
  - apply in_flat_map in He as [e0 [He0 He]].
    pose proof (IH e0 He0).
    destruct (in_Hop img dw e0 e He) as [[_ ->]|[d [_ [_ [_ [Eo _]]]]]]; [lia|].
    pose proof (dirOffset_norm d). rewrite Eo. simpl. lia.
Qed.

Lemma DW_GetR_nonneg (dwimg : LuvRangeImage Range) dist distMult x y d :
  0 <= DW_GetR (DW_Create dwimg dist distMult) x y d.
Proof.
  unfold DW_GetR, DW_Get, Array2D.Get.
  destruct (_ && _); [|lra]. simpl.
  destruct (nth_error _ d) eqn:E; [|lra].
  apply nth_error_In in E. pose proof (PixelWeight_nonneg _ dwimg dist distMult x y) as H.
  rewrite Forall_forall in H. apply H, E.
Qed.

Lemma PixelWeight_sum_le (img : LuvRangeImage Range) dist distMult x y :
  sumR (dir (PixelWeight img dist distMult x y)) <= 1.
Proof.
  destruct (existsb (NeighbourValid img x y) dirs) eqn:Ex.
  - apply existsb_exists in Ex as [d [Hd Hv]].
    destruct (Valid img x y) eqn:Ev.
    + rewrite PixelWeight_sum; [lra | exact Ev |].
      exists d. split; [unfold dirs in Hd; simpl in Hd; lia | exact Hv].
    + rewrite PixelWeight_zero by (left; exact Ev). simpl. lra.
  - rewrite PixelWeight_zero; [simpl; lra|]. right. intros d Hd.
    destruct (NeighbourValid img x y d) eqn:E; [|reflexivity].
    assert (existsb (NeighbourValid img x y) dirs = true).
    { apply existsb_exists. exists d. split; [unfold dirs; simpl; lia | exact E]. }
    congruence.
Qed.

Lemma DW_Sum_le (dwimg : LuvRangeImage Range) dist distMult x y :
  DW_Sum (DW_Create dwimg dist distMult) x y <= 1.
Proof.
  destruct ((x <? iwidth dwimg)%nat && (y <? iheight dwimg)%nat) eqn:E.
  - apply andb_true_iff in E as [E1 E2]. apply Nat.ltb_lt in E1, E2.
    rewrite DW_Sum_Create by assumption. apply PixelWeight_sum_le.
  - unfold DW_Sum, DW_GetR, DW_Get, Array2D.Get. simpl. rewrite E. simpl. lra.
Qed.

(** The share of a branch's weight that one hop passes on is in [0, 1]. *)
Lemma HopFactor_bounds (img dwimg : LuvRangeImage Range) dist distMult x y :
  let dw := DW_Create dwimg dist distMult in
  0 <= (if existsb (NeighbourValid img x y) dirs
        then sumR (map (fun d => if NeighbourValid img x y d then DW_GetR dw x y d else 0) dirs)
        else 1) <= 1.
Proof.
  intros dw. destruct (existsb _ dirs); [|lra]. split.
  - apply sumR_map_nonneg. intros d _. destruct (NeighbourValid _ _ _ _); [apply DW_GetR_nonneg | lra].
  - eapply Rle_trans; [|apply (DW_Sum_le dwimg dist distMult x y)].
    unfold DW_Sum. apply sumR_map_le. intros d _.
    destruct (NeighbourValid _ _ _ _); [apply Rle_refl | apply DW_GetR_nonneg].
Qed.

(** Branch weights stay non-negative and the total weight never grows. *)
Lemma Walk_mass_le (img dwimg : LuvRangeImage Range) dist distMult n start :
  Forall (fun e => 0 <= ew e) start ->
  Forall (fun e => 0 <= ew e) (Walk img (DW_Create dwimg dist distMult) n start) /\
  Mass (Walk img (DW_Create dwimg dist distMult) n start) <= Mass start.
Proof.
  intros Hs. induction n as [|n [IHf IHm]]; simpl; [split; [exact Hs | lra]|].
  set (dw := DW_Create dwimg dist distMult) in *.
  rewrite Forall_forall in IHf. split.
  - apply Forall_forall. intros e He. apply in_flat_map in He as [e0 [He0 He]].
    destruct (in_Hop img dw e0 e He) as [[_ ->]|[d [_ [_ [_ [_ Ew]]]]]]; [apply IHf, He0|].
    rewrite Ew. apply Rmult_le_pos; [apply IHf, He0 | apply DW_GetR_nonneg].
  - rewrite Mass_flat_map. eapply Rle_trans; [|exact IHm].
    unfold Mass at 2. apply sumR_map_le. intros e He. rewrite Hop_mass.
    destruct (HopFactor_bounds img dwimg dist distMult (fst (epos e)) (snd (epos e))).
    pose proof (IHf e He). fold dw in H, H0. nra.
Qed.

(** At a valid pixel one hop passes on all of a branch's weight: split
    over its valid directions, or kept when it has none. *)
Lemma HopFactor_one (img : LuvRangeImage Range) dist distMult x y :
  Valid img x y = true ->
  (if existsb (NeighbourValid img x y) dirs
   then sumR (map (fun d => if NeighbourValid img x y d
                            then DW_GetR (DW_Create img dist distMult) x y d else 0) dirs)
   else 1) = 1.
Proof.
  intros Hv. destruct (existsb _ dirs) eqn:Ex; [|reflexivity].
  assert (Hn : exists d, (d < 4)%nat /\ NeighbourValid img x y d = true).
  { apply existsb_exists in Ex as [d [Hd E]]. exists d.
    split; [unfold dirs in Hd; simpl in Hd; lia | exact E]. }
  assert (Hb : (x < iwidth img)%nat /\ (y < iheight img)%nat).
  { unfold Valid in Hv. apply andb_true_iff in Hv as [Hv _].
    apply andb_true_iff in Hv as [H1 H2]. apply Nat.ltb_lt in H1, H2. auto. }
  destruct Hb as [Hx Hy].
  rewrite <- (PixelWeight_sum _ img dist distMult x y Hv Hn).
  rewrite <- DW_Sum_Create by assumption. unfold DW_Sum. f_equal.
  apply map_ext_in. intros d Hd.
  destruct (NeighbourValid img x y d) eqn:E; [reflexivity|].
  unfold DW_GetR. rewrite DW_Get_Create by assumption.
  rewrite PixelWeight_invalid_dir; [reflexivity | |exact E].
  unfold dirs in Hd. simpl in Hd. lia.
Qed.

(** Every branch of the walk sits on a valid pixel. *)
Lemma Walk_valid (img : LuvRangeImage Range) dw n start :
  Forall (fun e => Valid img (fst (epos e)) (snd (epos e)) = true) start ->
  Forall (fun e => Valid img (fst (epos e)) (snd (epos e)) = true) (Walk img dw n start).
Proof.
  intros Hs. induction n as [|n IH]; simpl; [exact Hs|].
  rewrite Forall_forall in IH |- *. intros e He. apply in_flat_map in He as [e0 [He0 He]].
  destruct (in_Hop img dw e0 e He) as [[_ ->]|[d [_ [_ [Hv _]]]]]; [apply IH, He0 | exact Hv].
Qed.

(** Walking from branches on valid pixels keeps the total weight. *)
Lemma Walk_mass_eq (img : LuvRangeImage Range) dist distMult n start :
  Forall (fun e => Valid img (fst (epos e)) (snd (epos e)) = true) start ->
  Mass (Walk img (DW_Create img dist distMult) n start) = Mass start.
Proof.
  intros Hs. induction n as [|n IH]; simpl; [reflexivity|].
  rewrite Mass_flat_map, <- IH. unfold Mass at 2. f_equal. apply map_ext_in.
  intros e He. rewrite Hop_mass.
  pose proof (Walk_valid img (DW_Create img dist distMult) n start Hs) as Hg.
  rewrite Forall_forall in Hg.
  rewrite HopFactor_one by exact (Hg e He). ring.
Qed.

(** Summing the per-offset values over a duplicate-free list of offsets. *)
Lemma sum_offsets_single (D : list (Z * Z)) (p : Z * Z) (w : R) :
  NoDup D ->
  sumR (map (fun o => if offEqb p o then w else 0) D) =
  if existsb (offEqb p) D then w else 0.
Proof.
  induction 1 as [|o D Ho Hnd IH]; simpl; [reflexivity|].
  destruct (offEqb p o) eqn:E; simpl.
  - apply offEqb_spec in E. subst.
    assert (Hz : existsb (offEqb o) D = false).
    { apply Bool.not_true_iff_false. intros Hx. apply existsb_exists in Hx as [o' [Ho' Hx]].
      apply offEqb_spec in Hx. subst. contradiction. }
    rewrite IH, Hz. ring.
  - rewrite IH. ring.
Qed.

Lemma sum_offsets_swap (D : list (Z * Z)) (L : list Entry) :
  NoDup D ->
  sumR (map (fun o => sumR (map (fun e => if offEqb (eoff e) o then ew e else 0) L)) D) =
  sumR (map (fun e => if existsb (offEqb (eoff e)) D then ew e else 0) L).
Proof.
  intros Hnd. induction L as [|e L IH]; simpl.
  - induction D; simpl; [reflexivity|]. inversion Hnd; subst. rewrite IHD by assumption. ring.
  - rewrite (sumR_map_plus (fun o => if offEqb (eoff e) o then ew e else 0)
                            (fun o => sumR (map (fun e0 => if offEqb (eoff e0) o then ew e0 else 0) L))).
    rewrite sum_offsets_single by exact Hnd. rewrite IH. reflexivity.
Qed.

Lemma existsb_offEqb_In (D : list (Z * Z)) (p : Z * Z) :
  existsb (offEqb p) D = true <-> In p D.
Proof.
  rewrite existsb_exists. split.
  - intros [o [Ho E]]. apply offEqb_spec in E. subst. exact Ho.
  - intros H. exists p. split; [exact H | apply offEqb_refl].
Qed.

Lemma Valid_bounds (img : LuvRangeImage Range) x y :
  Valid img x y = true -> (x < iwidth img)%nat /\ (y < iheight img)%nat.
Proof.
  unfold Valid. intros Hv. apply andb_true_iff in Hv as [Hv _].
  apply andb_true_iff in Hv as [H1 H2]. apply Nat.ltb_lt in H1, H2. auto.
Qed.

(** ** Claims about [RangeDiffusionSlice] *)

(** C5: [RangeDiffusionSlice::Get(x,u,v)] is 0 for every slice when
    [abs(u)+abs(v) > steps] (any [x]) and when [x] is beyond the stored
    row; after [Create] it is also 0 at an offset that no branch of the
    walk from [x] reaches. *)
Theorem RDS_Get_zero_cases :
  (forall st x u v, (Z.of_nat (RDS_Steps st) < Z.abs u + Z.abs v)%Z ->
     RDS_Get st x u v = 0) /\
  (forall st x u v, (RDS_Width st <= x)%nat -> RDS_Get st x u v = 0) /\
  (forall (img : LuvRangeImage Range) dw yy s st x u v,
     SliceReachable st -> Reached img dw yy s x (u, v) = false ->
     RDS_Get (RDS_Create yy s img dw st) x u v = 0).
Proof.
  split; [|split].
  - intros st x u v H. unfold RDS_Get. apply Z.ltb_lt in H. unfold RDS_Steps in H.
    rewrite H. reflexivity.
  - intros st x u v H. unfold RDS_Get. destruct (_ <? _)%Z; [reflexivity|].
    unfold Array2D.Get. unfold RDS_Width in H.
    replace (x <? Array2D.width (data st))%nat with false
      by (symmetry; apply Nat.ltb_ge; exact H). reflexivity.
  - intros img dw yy s st x u v Hr Hn.
    rewrite RDS_Get_Create by (apply SliceReachable_Wf, Hr).
    rewrite MaskValue_unreached by exact Hn. destruct (_ && _); reflexivity.
Qed.

(** C7: two [Create] calls on one instance with the same width and step
    count leave a slice whose [Get], [Width], [Steps] and [Y] all agree
    with a new instance given only the second call. *)
Theorem RDS_Create_twice_fresh (img1 img2 : LuvRangeImage Range) dw1 dw2 y1 y2 s1 s2 st0 :
  SliceReachable st0 ->
  iwidth img1 = iwidth img2 -> s1 = s2 ->
  let st := RDS_Create y2 s2 img2 dw2 (RDS_Create y1 s1 img1 dw1 st0) in
  let fresh := RDS_Create y2 s2 img2 dw2 RDS_New in
  (forall x u v, RDS_Get st x u v = RDS_Get fresh x u v) /\
  RDS_Width st = RDS_Width fresh /\ RDS_Steps st = RDS_Steps fresh /\
  RDS_Y st = RDS_Y fresh.
Proof.
  intros Hr _ _ st fresh.
  assert (W1 : SliceWf (RDS_Create y1 s1 img1 dw1 st0))
    by (apply RDS_Create_Wf, SliceReachable_Wf, Hr).
  pose proof RDS_New_Wf as W0.
  split; [|split; [|split]].
  - intros x u v. unfold st, fresh. rewrite !RDS_Get_Create by assumption. reflexivity.
  - unfold RDS_Width, st, fresh. rewrite !RDS_Create_width by assumption. reflexivity.
  - unfold RDS_Steps, st, fresh.
    destruct (RDS_Create_shape _ img2 dw2 y2 s2 _ W1) as [_ [-> _]].
    destruct (RDS_Create_shape _ img2 dw2 y2 s2 _ W0) as [_ [-> _]]. reflexivity.
  - unfold RDS_Y, st, fresh.
    destruct (RDS_Create_shape _ img2 dw2 y2 s2 _ W1) as [_ [_ [-> _]]].
    destruct (RDS_Create_shape _ img2 dw2 y2 s2 _ W0) as [_ [_ [-> _]]]. reflexivity.
Qed.

Lemma sumR_map_zero {A : Type} (l : list A) : sumR (map (fun _ => 0) l) = 0.
Proof. induction l; simpl; [reflexivity | rewrite IHl; ring]. Qed.

Lemma start_nonneg x yy :
  Forall (fun e => 0 <= ew e) [{| epos := (x, yy); eoff := (0, 0)%Z; ew := 1 |}].
Proof. repeat constructor. simpl. lra. Qed.

Lemma MaskValue_nonneg (img dwimg : LuvRangeImage Range) dist distMult yy s x o :
  0 <= MaskValue img (DW_Create dwimg dist distMult) yy s x o.
Proof.
  unfold MaskValue. destruct (Valid img x yy); [|lra].
  destruct (Walk_mass_le img dwimg dist distMult s _ (start_nonneg x yy)) as [Hf _].
  rewrite Forall_forall in Hf. apply sumR_map_nonneg. intros e He.
  destruct (offEqb _ _); [apply Hf, He | lra].
Qed.

(** Sum of the mask values of [x] over duplicate-free offsets. *)
Lemma MaskValue_sum (img : LuvRangeImage Range) dw yy s x D :
  NoDup D -> Valid img x yy = true ->
  sumR (map (MaskValue img dw yy s x) D) =
  sumR (map (fun e => if existsb (offEqb (eoff e)) D then ew e else 0)
            (WalkFrom img dw yy s x)).
Proof.
  intros Hnd Hv. rewrite <- sum_offsets_swap by exact Hnd. f_equal. apply map_ext.
  intros o. unfold MaskValue. rewrite Hv. reflexivity.
Qed.

Lemma Create_bounds (img dwimg : LuvRangeImage Range) dist distMult yy s st x :
  SliceWf st ->
  let sl := RDS_Create yy s img (DW_Create dwimg dist distMult) st in
  (forall u v, 0 <= RDS_Get sl x u v) /\
  (forall D, NoDup D -> SliceSum sl x D <= 1).
Proof.
  intros Hwf sl. set (dw := DW_Create dwimg dist distMult) in *.
  assert (Hpt : forall o, 0 <= RDS_Get sl x (fst o) (snd o) <= MaskValue img dw yy s x o).
  { intros [u v]. unfold sl. rewrite RDS_Get_Create by exact Hwf. simpl.
    pose proof (MaskValue_nonneg img dwimg dist distMult yy s x (u, v)) as Hm.
    fold dw in Hm. destruct (_ && _); lra. }
  split.
  - intros u v. apply (Hpt (u, v)).
  - intros D Hnd. unfold SliceSum.
    eapply Rle_trans; [apply (sumR_map_le _ (MaskValue img dw yy s x)); intros o _; apply Hpt|].
    destruct (Valid img x yy) eqn:Hv.
    + rewrite MaskValue_sum by assumption.
      destruct (Walk_mass_le img dwimg dist distMult s _ (start_nonneg x yy)) as [Hf Hm].
      rewrite Forall_forall in Hf.
      eapply Rle_trans; [|apply Rle_trans with (1 := Hm); unfold Mass; simpl; lra].
      unfold Mass, WalkFrom. apply sumR_map_le. intros e He.
      destruct (existsb _ _); [lra | apply Hf, He].
    + erewrite map_ext; [rewrite sumR_map_zero; lra|].
      intros o. unfold MaskValue. rewrite Hv. reflexivity.
Qed.

(** C3: after [RangeDiffusionSlice::Create] with the weights of the
    image, the weights of a valid source pixel sum to 1 over the window
    [abs(u)+abs(v) <= steps]; a masked or off-image source pixel has weight
    0 at every offset. *)
Theorem RDS_Create_conservation (img : LuvRangeImage Range) dist distMult yy s st x :
  SliceReachable st ->
  let sl := RDS_Create yy s img (DW_Create img dist distMult) st in
  (Valid img x yy = true -> SliceSum sl x (Window s) = 1) /\
  (Valid img x yy = false -> forall u v, RDS_Get sl x u v = 0).
Proof.
  intros Hr sl. pose proof (SliceReachable_Wf st Hr) as Hwf.
  set (dw := DW_Create img dist distMult) in *.
  split.
  - intros Hv. destruct (Valid_bounds img x yy Hv) as [Hx _].
    unfold SliceSum.
    rewrite (map_ext_in _ (MaskValue img dw yy s x)).
    2: { intros [u v] Ho. unfold sl. rewrite RDS_Get_Create by exact Hwf. cbn [fst snd].
         apply in_Window in Ho. simpl in Ho.
         replace ((Z.abs u + Z.abs v <=? Z.of_nat s)%Z) with true by (symmetry; apply Z.leb_le; lia).
         replace (x <? iwidth img)%nat with true by (symmetry; apply Nat.ltb_lt; exact Hx).
         reflexivity. }
    rewrite MaskValue_sum by (apply NoDup_Window || exact Hv).
    rewrite (map_ext_in _ ew).
    2: { intros e He. replace (existsb (offEqb (eoff e)) (Window s)) with true; [reflexivity|].
         symmetry. apply existsb_offEqb_In, in_Window.
         apply (Walk_offsets img dw s [{| epos := (x, yy); eoff := (0, 0)%Z; ew := 1 |}] e);
           [|exact He].
         intros e0 [<-|[]]. reflexivity. }
    fold (Mass (WalkFrom img dw yy s x)). unfold WalkFrom.
    unfold dw. rewrite Walk_mass_eq; [unfold Mass; simpl; ring|].
    constructor; [exact Hv | constructor].
  - intros Hv u v. unfold sl. rewrite RDS_Get_Create by exact Hwf.
    unfold MaskValue. rewrite Hv. destruct (_ && _); reflexivity.
Qed.

End Slices.


(** Weights of a reachable slice are non-negative and sum to at most 1 over
    any duplicate-free list of offsets. *)
Lemma Reachable_bounds st :
  SliceReachable st ->
  (forall x u v, 0 <= RDS_Get st x u v) /\
  (forall x D, NoDup D -> SliceSum st x D <= 1).
Proof.
  induction 1 as [|Rg yy s img dwimg dist distMult st Hr _].
  - split; [intros; rewrite RDS_Get_New; lra|].
    intros x D _. unfold SliceSum. erewrite map_ext; [rewrite sumR_map_zero; lra|].
    intros o. apply RDS_Get_New.
  - pose proof (SliceReachable_Wf st Hr) as Hwf.
    split; intros x; apply (Create_bounds Rg img dwimg dist distMult yy s st x Hwf).
Qed.

Lemma fold_acc {A : Type} (p : A -> bool) (t : A -> R) (L : list A) (a : R) (b : bool) :
  fold_left (fun acc o => if p o then (fst acc + t o, true) else acc) L (a, b) =
  (a + sumR (map (fun o => if p o then t o else 0) L), b || existsb p L).
Proof.
  revert a b. induction L as [|o L IH]; intros a b; simpl.
  - f_equal; [ring | symmetry; apply orb_false_r].
  - destruct (p o); rewrite IH; simpl; f_equal; try ring.
    rewrite orb_true_r. reflexivity.
Qed.

Section Costs.

Variable Range : Type.

Lemma CostLoop_eq (dc : DiffuseCorrelation Range) x1 x2 :
  CostLoop dc x1 x2 = (SharedSum dc x1 x2, SharedOffset dc x1 x2).
Proof.
  unfold CostLoop, SharedSum, SharedOffset. cbv zeta.
  rewrite (fold_acc
    (fun o => nonZero (RDS_Get (dif1 dc) x1 (fst o) (snd o))
              && nonZero (RDS_Get (dif2 dc) x2 (fst o) (snd o)))
    (fun o => (RDS_Get (dif1 dc) x1 (fst o) (snd o) + RDS_Get (dif2 dc) x2 (fst o) (snd o))
              * ClampedDist dc x1 x2 o)).
  f_equal. ring.
Qed.

(** C1 (amended): [DiffuseCorrelation::Cost(x1,x2)] is the sum over the
    window offsets at which both slice weights are non-zero of [(w1+w2)]
    times the distance clamped to the cap, divided by 2, when both pixels
    are valid and some offset has both weights non-zero; otherwise it is
    [distanceCap]. *)
Theorem DC_Cost_shared_sum (dc : DiffuseCorrelation Range) x1 x2 :
  DC_Cost dc x1 x2 =
  if Valid (img1 dc) x1 (RDS_Y (dif1 dc)) && Valid (img2 dc) x2 (RDS_Y (dif2 dc))
     && SharedOffset dc x1 x2
  then SharedSum dc x1 x2 / 2 else distCap dc.
Proof.
  unfold DC_Cost. rewrite CostLoop_eq.
  destruct (Valid (img1 dc) x1 _ && Valid (img2 dc) x2 _); reflexivity.
Qed.

Lemma SharedSum_le_cap (dc : DiffuseCorrelation Range) x1 x2 :
  SliceReachable (dif1 dc) -> SliceReachable (dif2 dc) -> 0 <= distCap dc ->
  SharedSum dc x1 x2 <= 2 * distCap dc.
Proof.
  intros H1 H2 Hc.
  destruct (Reachable_bounds _ H1) as [P1 S1]. destruct (Reachable_bounds _ H2) as [P2 S2].
  set (W := Window (RDS_Steps (dif1 dc))).
  pose proof (S1 x1 W (NoDup_Window _)) as T1. pose proof (S2 x2 W (NoDup_Window _)) as T2.
  unfold SliceSum in T1, T2.
  unfold SharedSum. fold W. cbv zeta.
  eapply Rle_trans.
  - apply (sumR_map_le _ (fun o => distCap dc * RDS_Get (dif1 dc) x1 (fst o) (snd o)
                                  + distCap dc * RDS_Get (dif2 dc) x2 (fst o) (snd o))).
    intros o _. pose proof (P1 x1 (fst o) (snd o)). pose proof (P2 x2 (fst o) (snd o)).
    destruct (_ && _).
    + pose proof (Rmin_r (dist dc (pix (img1 dc) (fst (AtOffset x1 (RDS_Y (dif1 dc)) o))
                                   (snd (AtOffset x1 (RDS_Y (dif1 dc)) o)))
                          (pix (img2 dc) (fst (AtOffset x2 (RDS_Y (dif2 dc)) o))
                                   (snd (AtOffset x2 (RDS_Y (dif2 dc)) o))))
                        (distCap dc)).
      unfold ClampedDist. cbv zeta. nra.
    + nra.
  - rewrite sumR_map_plus, !sumR_map_scale. nra.
Qed.

(** C4: with slices built by [Create] and a non-negative cap,
    [DiffuseCorrelation::Cost] never exceeds [distanceCap], and it is
    exactly [distanceCap] when either pixel is masked or off its image or
    no offset has non-zero weight in both slices. *)
Theorem DC_Cost_capped (dc : DiffuseCorrelation Range) x1 x2 :
  SliceReachable (dif1 dc) -> SliceReachable (dif2 dc) -> 0 <= distCap dc ->
  DC_Cost dc x1 x2 <= distCap dc /\
  ((Valid (img1 dc) x1 (RDS_Y (dif1 dc)) = false \/
    Valid (img2 dc) x2 (RDS_Y (dif2 dc)) = false \/
    SharedOffset dc x1 x2 = false) ->
   DC_Cost dc x1 x2 = distCap dc).
Proof.
  intros H1 H2 Hc. rewrite DC_Cost_shared_sum. split.
  - destruct (_ && _ && _); [|lra].
    pose proof (SharedSum_le_cap dc x1 x2 H1 H2 Hc). lra.
  - intros [E|[E|E]]; rewrite E; [|rewrite andb_false_r|rewrite andb_false_r]; reflexivity.
Qed.

(** C8: with one image and one slice on both sides, a distance that is 0
    from a range to itself and non-negative, and a non-negative cap,
    [Cost(x, x) <= Cost(x, x')] for every [x' <> x]. *)
Theorem DC_Cost_self_match (d : LuvRangeDist Range) cap (img : LuvRangeImage Range) st x x' :
  SliceReachable st -> (forall a, d a a = 0) -> (forall a b, 0 <= d a b) -> 0 <= cap ->
  x' <> x ->
  DC_Cost (DC_Setup d cap img st img st) x x <= DC_Cost (DC_Setup d cap img st img st) x x'.
Proof.
  intros Hr Hself Hnn Hc _.
  destruct (Reachable_bounds _ Hr) as [P _].
  rewrite !DC_Cost_shared_sum. cbn [img1 img2 dif1 dif2 distCap DC_Setup].
  set (dc := DC_Setup d cap img st img st).
  destruct (Valid img x (RDS_Y st)) eqn:Hv; cbn [andb]; [|lra].
  destruct (SharedOffset dc x x) eqn:Hs.
  - replace (SharedSum dc x x / 2) with 0.
    2: { unfold SharedSum. cbv zeta. rewrite (map_ext _ (fun _ => 0)).
         - rewrite sumR_map_zero. lra.
         - intros o. destruct (_ && _); [|reflexivity].
           unfold ClampedDist. cbv zeta. unfold dc. cbn [dist img1 img2 dif1 dif2 distCap DC_Setup].
           rewrite Hself, Rmin_left by exact Hc. ring. }
    destruct (Valid img x' (RDS_Y st) && SharedOffset dc x x'); [|exact Hc].
    assert (0 <= SharedSum dc x x'); [|lra].
    unfold SharedSum. cbv zeta. apply sumR_map_nonneg. intros o _.
    destruct (_ && _); [|lra].
    apply Rmult_le_pos.
    + unfold dc. cbn [dif1 dif2 DC_Setup]. pose proof (P x (fst o) (snd o)).
      pose proof (P x' (fst o) (snd o)). lra.
    + unfold ClampedDist. unfold dc. cbn [dist img1 img2 dif1 dif2 distCap DC_Setup].
      apply Rmin_glb; [apply Hnn | exact Hc].
  - assert (Hs' : SharedOffset dc x x' = false).
    { unfold SharedOffset in *. apply Bool.not_true_iff_false. intros Hx.
      apply existsb_exists in Hx as [o [Ho Hx]]. apply andb_true_iff in Hx as [Hx _].
      assert (existsb (fun o => nonZero (RDS_Get (dif1 dc) x (fst o) (snd o))
                               && nonZero (RDS_Get (dif2 dc) x (fst o) (snd o)))
                (Window (RDS_Steps (dif1 dc))) = true).
      { apply existsb_exists. exists o. split; [exact Ho|].
        unfold dc in *. cbn [dif1 dif2 DC_Setup] in *. rewrite Hx. reflexivity. }
      congruence. }
    rewrite Hs', andb_false_r. lra.
Qed.

End Costs.

(** * Witnesses and counterexamples *)

Lemma DW_Normalisation_counterexample :
  ~ DW_Normalisation_as_stated img1x1 zeroDist 1.
Proof.
  intros [H _]. specialize (H 0%nat 0%nat eq_refl).
  unfold DW_Sum, DW_GetR, DW_Get, DW_Create, Array2D.Get in H. simpl in H.
  unfold PixelWeight in H. simpl in H. lra.
Qed.

Lemma DW_Create_normalised_witness :
  Valid img2x1 0 0 = true /\ NeighbourValid img2x1 0 0 0 = true /\
  DW_Sum (DW_Create img2x1 zeroDist 1) 0 0 = 1.
Proof.
  split; [reflexivity|]. split; [reflexivity|].
  apply (DW_Create_normalised unit img2x1 zeroDist 1 0 0); try (simpl; lia).
  - reflexivity.
  - exists 0%nat. split; [lia | reflexivity].
Defined.

Lemma DW_Create_invalid_neighbour_witness :
  NeighbourValid img2x1 1 0 0 = false /\
  DW_Get (DW_Create img2x1 zeroDist 1) 1 0 0 = Some 0.
Proof.
  split; [reflexivity|].
  apply (DW_Create_invalid_neighbour unit img2x1 zeroDist 1 1 0 0); simpl; try lia.
  reflexivity.
Defined.

Lemma DW_Get_defined_iff_witness :
  (0 < iwidth img2x1)%nat /\ (0 < iheight img2x1)%nat /\
  (DW_Get (DW_Create img2x1 zeroDist 1) 0 0 4 <> None <-> (4 < 4)%nat).
Proof.
  split; [simpl; lia|]. split; [simpl; lia|].
  apply (DW_Get_defined_iff unit img2x1 zeroDist 1 0 0 4); simpl; lia.
Defined.

Lemma DC_Cost_counterexample :
  DC_Cost dc0 5 0 <> SharedSum dc0 5 0 / 2.
Proof.
  assert (Hs : SharedSum dc0 5 0 = 0).
  { unfold SharedSum, dc0, DC_Setup. cbn [dif1 dif2]. cbv zeta.
    rewrite (map_ext _ (fun _ => 0)); [apply sumR_map_zero|].
    intros o. rewrite !RDS_Get_New. unfold nonZero.
    destruct (Req_EM_T 0 0); [reflexivity | congruence]. }
  rewrite Hs. unfold DC_Cost, dc0, DC_Setup. simpl. lra.
Qed.

Lemma RDS_Create_conservation_witness :
  SliceReachable RDS_New /\ Valid img1x1 0 0 = true /\
  SliceSum (RDS_Create 0 1 img1x1 (DW_Create img1x1 zeroDist 1) RDS_New) 0 (Window 1) = 1.
Proof.
  split; [constructor|]. split; [reflexivity|].
  apply (proj1 (RDS_Create_conservation unit img1x1 zeroDist 1 0 1 RDS_New 0 reach_new)).
  reflexivity.
Defined.

Lemma DC_Cost_capped_witness :
  SliceReachable (dif1 dc1) /\ SliceReachable (dif2 dc1) /\ 0 <= distCap dc1 /\
  DC_Cost dc1 0 1 <= distCap dc1.
Proof.
  assert (H1 : SliceReachable (dif1 dc1)) by (simpl; unfold slice2x1; constructor; constructor).
  assert (H2 : SliceReachable (dif2 dc1)) by (simpl; unfold slice2x1; constructor; constructor).
  assert (Hc : 0 <= distCap dc1) by (simpl; apply Rle_0_1).
  split; [exact H1|]. split; [exact H2|]. split; [exact Hc|].
  apply (proj1 (DC_Cost_capped unit dc1 0 1 H1 H2 Hc)).
Defined.

Lemma RDS_Get_zero_cases_witness :
  (Z.of_nat (RDS_Steps slice2x1) < Z.abs 2 + Z.abs 0)%Z /\
  RDS_Get slice2x1 0 2 0 = 0 /\
  (RDS_Width slice2x1 <= 7)%nat /\ RDS_Get slice2x1 7 0 0 = 0 /\
  SliceReachable RDS_New /\
  Reached img1x1 (DW_Create img1x1 zeroDist 1) 0 1 0 (1, 0)%Z = false /\
  RDS_Get (RDS_Create 0 1 img1x1 (DW_Create img1x1 zeroDist 1) RDS_New) 0 1 0 = 0.
Proof.
  destruct (RDS_Get_zero_cases unit) as [P1 [P2 P3]].
  assert (Hs : (Z.of_nat (RDS_Steps slice2x1) < Z.abs 2 + Z.abs 0)%Z) by (vm_compute; reflexivity).
  assert (Hw : (RDS_Width slice2x1 <= 7)%nat) by (vm_compute; lia).
  assert (Hn : Reached img1x1 (DW_Create img1x1 zeroDist 1) 0 1 0 (1, 0)%Z = false)
    by reflexivity.
  split; [exact Hs|]. split; [exact (P1 slice2x1 0%nat 2%Z 0%Z Hs)|].
  split; [exact Hw|]. split; [exact (P2 slice2x1 7%nat 0%Z 0%Z Hw)|].
  split; [constructor|]. split; [exact Hn|].
  exact (P3 img1x1 (DW_Create img1x1 zeroDist 1) 0%nat 1%nat RDS_New 0%nat 1%Z 0%Z reach_new Hn).
Defined.

Lemma RDS_Create_twice_fresh_witness :
  SliceReachable RDS_New /\ iwidth img2x1 = iwidth img2x1 /\ (1 = 1)%nat /\
  RDS_Get (RDS_Create 0 1 img2x1 (DW_Create img2x1 zeroDist 2) slice2x1) 1 (-1) 0 =
  RDS_Get (RDS_Create 0 1 img2x1 (DW_Create img2x1 zeroDist 2) RDS_New) 1 (-1) 0.
Proof.
  split; [constructor|]. split; [reflexivity|]. split; [reflexivity|].
  apply (proj1 (RDS_Create_twice_fresh unit img2x1 img2x1 (DW_Create img2x1 zeroDist 1)
                  (DW_Create img2x1 zeroDist 2) 0 0 1 1 RDS_New reach_new eq_refl eq_refl)).
Defined.

Lemma DC_Cost_self_match_witness :
  SliceReachable slice2x1 /\ (forall a, zeroDist a a = 0) /\ (forall a b, 0 <= zeroDist a b) /\
  0 <= 1 /\ (1 <> 0)%nat /\
  DC_Cost dc1 0 0 <= DC_Cost dc1 0 1.
Proof.
  assert (Hr : SliceReachable slice2x1) by (unfold slice2x1; constructor; constructor).
  assert (Hs : forall a, zeroDist a a = 0) by (intros; reflexivity).
  assert (Hn : forall a b, 0 <= zeroDist a b) by (intros; apply Rle_refl).
  assert (Hx : (1 <> 0)%nat) by lia.
  split; [exact Hr|]. split; [exact Hs|]. split; [exact Hn|]. split; [apply Rle_0_1|].
  split; [exact Hx|].
  exact (DC_Cost_self_match unit zeroDist 1 img2x1 slice2x1 0 1 Hr Hs Hn Rle_0_1 Hx).
Defined.

(** ** ToneScaler *)

Lemma last_default_irrel {A : Type} (l : list A) (d1 d2 : A) :
  l <> [] -> last l d1 = last l d2.
Proof.
  induction l as [|a l IH]; [congruence|]. intros _.
  destruct l as [|b l]; [reflexivity|]. apply IH. discriminate.
Qed.

Lemma GetMode_fold_SetMode (ms : list bool) (t : ToneScaler) :
  GetMode (fold_left SetMode ms t) = last ms (GetMode t).
Proof.
  revert t. induction ms as [|m ms IH]; intros t; [reflexivity|].
  simpl. rewrite IH. destruct ms as [|m' ms]; [reflexivity|].
  apply last_default_irrel. discriminate.
Qed.

(** After constructing a [ToneScaler] with [meanMode] [m] (or with the
    default argument, [false]) and calling [SetMode] with each flag of [ms]
    in turn, [GetMode] returns the last flag set, or the constructor's flag
    when [ms] is empty. *)
Theorem ToneScaler_GetMode_last (m : bool) (ms : list bool) :
  GetMode (fold_left SetMode ms (ToneScaler_make m)) = last ms m /\
  GetMode (fold_left SetMode ms ToneScaler_default) = last ms false.
Proof.
  split; apply GetMode_fold_SetMode.
Qed.
